(** * The word-count example ([examples/wordcount/wordcount.py])

    A shallow embedding of the functions of the word-count example and of
    the part of the runtime contract they rely on.

    - Python integers are unbounded: they are [Z].
    - A [str] is a [string]; iterating over it yields one-character strings.
    - A [dict], [Counter] or [defaultdict(int)] with integer values is a
      [gmap] into [Z]; the three classes compare equal as mappings, so the
      class is not recorded.
    - A Python list is a [list]; list indices are [nat].
    - A raised exception is the [Raise] case of the result type [res]. *)

From Stdlib Require Import ZArith Lia Ascii String.
From stdpp Require Import gmap strings list fin_maps sorting.

Local Open Scope Z_scope.

(** ** Exceptions *)

Inductive exn : Type :=
  | ZeroDivisionError
  | IndexError
  | TypeError
  | IOError.

Inductive res (A : Type) : Type :=
  | Ok (a : A)
  | Raise (e : exn).
Arguments Ok {A} a.
Arguments Raise {A} e.

#[global] Instance res_ret : MRet res := λ A a, Ok a.
#[global] Instance res_bind : MBind res := λ A B f m,
  match m with
  | Ok a => f a
  | Raise e => Raise e
  end.
#[global] Instance res_fmap : FMap res := λ A B f m,
  match m with
  | Ok a => Ok (f a)
  | Raise e => Raise e
  end.

(** ** Values crossing the remote-call boundary *)

(** The type objects that occur in the decorators of the example. *)
Inductive pytype : Type :=
  | Str
  | Int
  | Dict.

#[global] Instance pytype_eq_dec : EqDecision pytype.
Proof. solve_decision. Defined.

#[warnings="-register-all"]
Inductive value : Type :=
  | VStr (s : string)
  | VInt (z : Z)
  | VDict (m : gmap string Z)
  | VTuple (vs : list value).

(** How a result of the embedding is seen as a Python object: a Rocq pair
    is the tuple built by [return a, b]. *)
Class ToValue (A : Type) : Type := to_value : A → value.
#[global] Instance str_to_value : ToValue string := VStr.
#[global] Instance int_to_value : ToValue Z := VInt.
#[global] Instance dict_to_value : ToValue (gmap string Z) := VDict.
#[global] Instance pair_to_value `{ToValue A, ToValue B} : ToValue (A * B) :=
  λ p, VTuple [to_value p.1; to_value p.2].

(** [isinstance(v, t)] for the three type objects. *)
Definition isinstance (v : value) (t : pytype) : bool :=
  match v, t with
  | VStr _, Str => true
  | VInt _, Int => true
  | VDict _, Dict => true
  | _, _ => false
  end.

(** Whether the object is a sequence of values ([len] is then [Some]). *)
Definition value_len (v : value) : option nat :=
  match v with
  | VTuple vs => Some (length vs)
  | _ => None
  end.

(** ** The decorator [op.distributed(arg_types, return_types)]

    In an argument list [None] is the placeholder of the source. *)
Record distributed : Type := Distributed {
  arg_types : list (option pytype);
  return_types : list pytype
}.

Definition load_textfile_decl : distributed :=
  Distributed [Some Str] [Str; Int].
Definition count_words_decl : distributed :=
  Distributed [Some Str] [Dict].
Definition count_words_fast_decl : distributed :=
  Distributed [Some Str] [Dict].
Definition sum_by_key_decl : distributed :=
  Distributed [Some Dict; None] [Dict].
Definition sum_by_key_return_len_decl : distributed :=
  Distributed [Some Dict; None] [Int].
Definition map_reduce_decl : distributed :=
  Distributed [Some Str; None] [Dict].
Definition map_reduce2_decl : distributed :=
  Distributed [Some Str; None] [Int].

(** Modelled from the spec: the runtime's reading of a signature (the
    runtime is not part of the example).  A placeholder in the last
    position repeats the type before it for zero or more additional
    trailing arguments; every other entry expects one argument of its
    type. *)
Fixpoint check_arguments (sig : list (option pytype)) (args : list pytype) : bool :=
  match sig, args with
  | [], [] => true
  | [Some t; None], a :: rest =>
      bool_decide (a = t) && forallb (λ b, bool_decide (b = t)) rest
  | Some t :: sig', a :: args' => bool_decide (a = t) && check_arguments sig' args'
  | _, _ => false
  end.

(** ** Strings *)

(** [c.isspace()] for a byte string in the C locale: space, and the
    control characters tab, newline, vertical tab, form feed, return. *)
Definition isspace (c : ascii) : bool :=
  let n := N_of_ascii c in
  ((n =? 32) || ((9 <=? n) && (n <=? 13)))%N.

(** [data.split()]: the maximal runs of non-space characters, in order.
    [word] is the run being read. *)
Fixpoint split_from (word : string) (data : string) : list string :=
  match data with
  | EmptyString =>
      match word with
      | EmptyString => []
      | _ => [word]
      end
  | String c rest =>
      if isspace c then
        match word with
        | EmptyString => split_from EmptyString rest
        | _ => word :: split_from EmptyString rest
        end
      else split_from (word +:+ String c EmptyString) rest
  end.

Definition split (data : string) : list string := split_from EmptyString data.

(** [len(data)] *)
Definition len (data : string) : Z := Z.of_nat (String.length data).

(** [for k in data]: the one-character strings of [data], in order. *)
Definition iter_str (data : string) : list string :=
  (λ c, String c EmptyString) <$> list_ascii_of_string data.

(** ** Counting *)

Section counters.
Context `{Countable K}.

(** [counter[k] += n] on a [Counter] or a [defaultdict(int)]: a missing
    key reads as 0. *)
Definition iadd (counter : gmap K Z) (k : K) (n : Z) : gmap K Z :=
  <[k := default 0 (counter !! k) + n]> counter.

(** [Counter.update(iterable)]: one more for each element. *)
Definition Counter_update (c : gmap K Z) (iterable : list K) : gmap K Z :=
  foldl (λ c elem, iadd c elem 1) c iterable.

(** [Counter(iterable)] *)
Definition Counter (iterable : list K) : gmap K Z := Counter_update ∅ iterable.

(** [d.keys()]; the order of the keys of a dict is unspecified, see
    [add_keys_order] below. *)
Definition keys (d : gmap K Z) : list K := (map_to_list d).*1.

(** [result[key] += d_get(key)], where [d.get] answers [None] for a
    missing key and adding [None] to an integer raises. *)
Definition iadd_get (result : gmap K Z) (key : K) (v : option Z) : res (gmap K Z) :=
  match v with
  | Some n => Ok (iadd result key n)
  | None => Raise TypeError
  end.

(** [for key in ks: result[key] += d_get(key)] *)
Fixpoint add_keys (d : gmap K Z) (ks : list K) (result : gmap K Z) : res (gmap K Z) :=
  match ks with
  | [] => Ok result
  | key :: ks' => result' ← iadd_get result key (d !! key); add_keys d ks' result'
  end.

(** [for d in dicts: ...] *)
Fixpoint add_dicts (dicts : list (gmap K Z)) (result : gmap K Z) : res (gmap K Z) :=
  match dicts with
  | [] => Ok result
  | d :: dicts' => result' ← add_keys d (keys d) result; add_dicts dicts' result'
  end.

Definition sum_by_key (dicts : list (gmap K Z)) : res (gmap K Z) :=
  add_dicts dicts ∅.

Definition sum_by_key_return_len (dicts : list (gmap K Z)) : res Z :=
  result ← add_dicts dicts ∅; Ok (Z.of_nat (size result)).

Definition red (dicts : list (gmap K Z)) : res (gmap K Z) :=
  add_dicts dicts ∅.
End counters.

(** ** The remote functions on strings *)

(** The file system as [open(url, "r").read()] sees it: the contents of
    the file, or nothing when it cannot be opened. *)
Definition filesystem : Type := string → option string.

Definition load_textfile (fs : filesystem) (url : string) : res (string * Z) :=
  match fs url with
  | Some result => Ok (result, len result)
  | None => Raise IOError
  end.

Definition count_words (data : string) : gmap string Z :=
  let word_list := split data in
  Counter word_list.

(** The loop is over the characters of [data]; [dict(counter)] copies the
    mapping. *)
Definition count_words_fast (data : string) : gmap string Z :=
  foldl (λ counter k, iadd counter k 1) ∅ (iter_str data).

Definition map_reduce (data : list string) : gmap string Z :=
  foldl (λ c s, Counter_update c (split s)) ∅ data.

Definition map_reduce2 (data : list string) : Z :=
  let c := foldl (λ c s, Counter_update c (split s)) (∅ : gmap string Z) data in
  1.

(** ** Partition sizing *)

(** [l[k]] for an index [k] that is not negative. *)
Definition getitem {A} (l : list A) (k : nat) : res A :=
  match l !! k with
  | Some x => Ok x
  | None => Raise IndexError
  end.

(** [a // b]: floor division, as [Z.div]. *)
Definition floordiv (a b : Z) : res Z :=
  if decide (b = 0) then Raise ZeroDivisionError else Ok (a `div` b).

(** [sum(sizes)] *)
Definition py_sum (sizes : list Z) : Z := foldl Z.add 0 sizes.

(** [range(n)] *)
Definition range (n : Z) : list nat := seq 0 (Z.to_nat n).

(** [sorted(l, key=key)]: the keys are computed first, one per element,
    then the elements are sorted by key, elements of equal key staying in
    their order (the sort is stable). *)
Fixpoint insert_by_key (x : Z * nat) (l : list (Z * nat)) : list (Z * nat) :=
  match l with
  | [] => [x]
  | y :: l' => if decide (x.1 ≤ y.1) then x :: l else y :: insert_by_key x l'
  end.

Fixpoint sort_by_key (l : list (Z * nat)) : list (Z * nat) :=
  match l with
  | [] => []
  | x :: l' => insert_by_key x (sort_by_key l')
  end.

Fixpoint map_res {A B} (f : A → res B) (l : list A) : res (list B) :=
  match l with
  | [] => Ok []
  | x :: l' => y ← f x; ys ← map_res f l'; Ok (y :: ys)
  end.

Definition sorted (l : list nat) (key : nat → res Z) : res (list nat) :=
  ks ← map_res key l; Ok ((sort_by_key (zip ks l)).*2).

(** [l.pop()] on a list that is not empty: the list without its last
    element, and that element. *)
Definition pop {A} (l : list A) : option (list A * A) :=
  match reverse l with
  | [] => None
  | x :: r => Some (reverse r, x)
  end.

(** The loop [while len(head) > 0: ...] for one partition.  It ends when
    [head] is empty; [fuel] bounds the number of iterations, and
    [for_partition] gives it [len(head)], which is what the loop needs
    ([while_head_exits]). *)
Fixpoint while_head (fuel : nat) (sizes : list Z) (partition_size : Z)
    (partition : nat) (head tail : list nat) (result : list (list nat))
    (cur_size : Z) : res (list nat * list nat * list (list nat)) :=
  match fuel with
  | O => Ok (head, tail, result)
  | S fuel' =>
      match pop head with
      | None => Ok (head, tail, result)
      | Some (head', elem) =>
          size ← getitem sizes elem;
          if decide (size ≤ partition_size - cur_size) then
            part ← getitem result partition;
            while_head fuel' sizes partition_size partition head' tail
              (<[partition := part ++ [elem]]> result) (cur_size + size)
          else
            while_head fuel' sizes partition_size partition head'
              (tail ++ [elem]) result cur_size
      end
  end.

(** The loop [for partition in range(len(result)): ...]. *)
Fixpoint for_partition (partitions : list nat) (sizes : list Z)
    (partition_size : Z) (head : list nat) (result : list (list nat))
    : res (list nat * list (list nat)) :=
  match partitions with
  | [] => Ok (head, result)
  | partition :: rest =>
      '(_, tail, result') ←
        while_head (length head) sizes partition_size partition head [] result 0;
      for_partition rest sizes partition_size (reverse tail) result'
  end.

Definition split_partitions (sizes : list Z) (num_partitions : Z)
    : res (list (list nat)) :=
  let total_size := py_sum sizes in
  partition_size ← floordiv (total_size + num_partitions - 1) num_partitions;
  perm ← sorted (range (Z.of_nat (length sizes))) (λ k, getitem sizes k);
  let result := (λ _, []) <$> range (num_partitions - 1) in
  '(head, result') ←
    for_partition (range (Z.of_nat (length result))) sizes partition_size perm result;
  Ok (result' ++ [head]).

(** ** The object store of the runtime *)

Module ObjectStore.

(** Modelled from the spec: an ObjectId is an opaque identifier, such
    as a 128-bit value; the runtime is not part of the example. *)
Definition ObjectId : Type := N.

Inductive error : Type :=
  | DuplicateWriteError.

Section store.
Context {V : Type}.

(** An entry is created empty ([None]) and filled once ([Some v]). *)
Abbreviation store := (gmap ObjectId (option V)).

(** Modelled from the spec: the value of an id, when its entry is
    there and ready. *)
Definition value_of (st : store) (oid : ObjectId) : option V :=
  match st !! oid with
  | Some entry => entry
  | None => None
  end.

(** Modelled from the spec: [put(objectId, value)] fails with
    [DuplicateWriteError] if the id already has a value, and fills
    the entry otherwise. *)
Definition put (oid : ObjectId) (v : V) (st : store) : (error + unit) * store :=
  match value_of st oid with
  | Some _ => (inl DuplicateWriteError, st)
  | None => (inr (), <[oid := Some v]> st)
  end.

(** Modelled from the spec: [get(objectId)] returns the value once
    the entry is ready and never changes the store; [None] stands for
    a caller that is still blocked. *)
Definition get (oid : ObjectId) (st : store) : option V := value_of st oid.

(** Modelled from the spec: [exists(objectId)], the readiness check. *)
Definition exists_ (oid : ObjectId) (st : store) : bool :=
  bool_decide (is_Some (value_of st oid)).

(** Modelled from the spec: an entry is created empty when a task
    that has it as an output is scheduled. *)
Definition create (oid : ObjectId) (st : store) : store :=
  match st !! oid with
  | Some _ => st
  | None => <[oid := None]> st
  end.

(** The requests the store serves, and its answers. *)
Inductive request : Type :=
  | Put (oid : ObjectId) (v : V)
  | Get (oid : ObjectId)
  | Exists (oid : ObjectId)
  | Create (oid : ObjectId).

Inductive response : Type :=
  | Done
  | Failed (e : error)
  | Value (v : option V)
  | Ready (b : bool).

Definition step (r : request) (st : store) : response * store :=
  match r with
  | Put oid v =>
      match put oid v st with
      | (inl e, st') => (Failed e, st')
      | (inr _, st') => (Done, st')
      end
  | Get oid => (Value (get oid st), st)
  | Exists oid => (Ready (exists_ oid st), st)
  | Create oid => (Done, create oid st)
  end.

Fixpoint run (reqs : list request) (st : store) : list response * store :=
  match reqs with
  | [] => ([], st)
  | r :: reqs' =>
      let '(a, st') := step r st in
      let '(answers, st'') := run reqs' st' in
      (a :: answers, st'')
  end.
End store.
End ObjectStore.

(** ** What the specification says of a result *)

(** The sum of a list of integers. *)
Definition sum_Z (l : list Z) : Z := foldr Z.add 0 l.

(** The values bound to [key] in the dictionaries that contain it. *)
Definition values_at `{Countable K} (key : K) (dicts : list (gmap K Z)) : list Z :=
  omap (λ d : gmap K Z, d !! key) dicts.

(** The number of occurrences of [x] in [l]. *)
Definition occurrences `{EqDecision A} (x : A) (l : list A) : nat :=
  length (filter (λ y, y = x) l).

(** What one dictionary adds to the entry of a key: [o] is the entry
    before, [v] what the dictionary binds to the key. *)
Definition add_entry (o : option Z) (v : option Z) : option Z :=
  match v with
  | Some n => Some (default 0 o + n)
  | None => o
  end.

(** The functions of the example that take [*dicts] or [*data]. *)
Definition variadic_functions : list distributed :=
  [sum_by_key_decl; sum_by_key_return_len_decl; map_reduce_decl; map_reduce2_decl].

(** A function that declares one output returns [v]: a value of the
    declared type, which is not a sequence of values. *)
Definition returned_directly (f : distributed) (v : value) : Prop :=
  ∃ t, return_types f = [t] ∧ isinstance v t = true ∧ value_len v = None.

(** The lists of [split_partitions]: [i] is in the list of index [j]. *)
Definition in_partition (result : list (list nat)) (j i : nat) : Prop :=
  ∃ l, result !! j = Some l ∧ i ∈ l.

(** The sum of the values of a mapping: the number of things counted. *)
Definition total `{Countable K} (m : gmap K Z) : Z := sum_Z (map_to_list m).*2.

(** A word without white space, and a string of white space only. *)
Definition no_space (w : string) : Prop :=
  Forall (λ c, isspace c = false) (list_ascii_of_string w).

Definition all_space (data : string) : Prop :=
  Forall (λ c, isspace c = true) (list_ascii_of_string data).

(** The size of the element of index [k] (0 outside the list), and the
    sum of the sizes of the elements of a partition. *)
Definition size_at (sizes : list Z) (k : nat) : Z := default 0 (sizes !! k).

Definition partition_total (sizes : list Z) (l : list nat) : Z :=
  sum_Z (size_at sizes <$> l).

(** The order of [sorted(range(len(sizes)), key=...)]: by size, and by
    index among elements of the same size. *)
Definition size_index_lt (sizes : list Z) (i j : nat) : Prop :=
  size_at sizes i < size_at sizes j ∨
  (size_at sizes i = size_at sizes j ∧ (i < j)%nat).

(** An element no larger than another. *)
Definition size_le (sizes : list Z) (i j : nat) : Prop :=
  size_at sizes i ≤ size_at sizes j.

(** The same order on the pairs of a size and an index. *)
Definition pair_lt (a b : Z * nat) : Prop :=
  a.1 < b.1 ∨ (a.1 = b.1 ∧ (a.2 < b.2)%nat).

(** * Properties *)

(** ** The embedding on small inputs *)

Example split_example : split "  a a	b " = ["a"; "a"; "b"]%string.
Proof. reflexivity. Qed.

Example count_words_example : count_words "a a b" = {["a"%string := 2; "b"%string := 1]}.
Proof. vm_compute. reflexivity. Qed.

Example split_partitions_example :
  split_partitions [3; 1; 2] 2 = Ok [[0%nat]; [1%nat; 2%nat]].
Proof. vm_compute. reflexivity. Qed.


(** ** Adding up dictionaries *)

Section counters_facts.
Context `{Countable K}.
Implicit Types (d result : gmap K Z) (dicts : list (gmap K Z)) (k key : K).

Lemma iadd_lookup result key n k :
  iadd result key n !! k =
    if decide (key = k) then Some (default 0 (result !! key) + n) else result !! k.
Proof. unfold iadd. by rewrite lookup_insert. Qed.

Lemma add_keys_lookup d ks result :
  NoDup ks →
  (∀ k, k ∈ ks → is_Some (d !! k)) →
  ∃ r, add_keys d ks result = Ok r ∧
    ∀ k, r !! k = if decide (k ∈ ks) then add_entry (result !! k) (d !! k)
                  else result !! k.
Proof.
  intros Hnd. revert result.
  induction Hnd as [|key ks Hnotin Hnd IH]; intros result Hin.
  - exists result. split; [done|]. intros k.
    rewrite decide_False; [done|]. apply not_elem_of_nil.
  - destruct (Hin key) as [n Hn]; [by left|].
    destruct (IH (iadd result key n)) as (r & Hr & Hlook).
    { intros k Hk. apply Hin. by right. }
    exists r. split.
    { simpl. rewrite Hn. simpl. exact Hr. }
    intros k. rewrite Hlook, iadd_lookup.
    destruct (decide (key = k)) as [<-|Hne].
    + rewrite decide_False by done. rewrite decide_True by left.
      by rewrite Hn.
    + destruct (decide (k ∈ ks)) as [Hk|Hk].
      * rewrite decide_True by (by right). done.
      * rewrite decide_False; [done|].
        intros [->|?]%elem_of_cons; done.
Qed.

Lemma NoDup_keys d : NoDup (keys d).
Proof. apply NoDup_fst_map_to_list. Qed.

Lemma elem_of_keys d k : k ∈ keys d ↔ is_Some (d !! k).
Proof.
  unfold keys. rewrite list_elem_of_fmap. split.
  - intros ([k' v] & -> & Hkv). apply elem_of_map_to_list in Hkv. by exists v.
  - intros [v Hv]. exists (k, v). split; [done|]. by apply elem_of_map_to_list.
Qed.

(** The keys of a dictionary may be visited in any order: the outcome
    is the same. *)
Lemma add_keys_any_order d ks result :
  NoDup ks →
  (∀ k, k ∈ ks ↔ is_Some (d !! k)) →
  ∃ r, add_keys d ks result = Ok r ∧
    ∀ k, r !! k = add_entry (result !! k) (d !! k).
Proof.
  intros Hnd Hks.
  destruct (add_keys_lookup d ks result Hnd) as (r & Hr & Hlook).
  { intros k. apply Hks. }
  exists r. split; [done|]. intros k. rewrite Hlook.
  destruct (decide (k ∈ ks)) as [|Hnotin]; [done|].
  rewrite Hks in Hnotin. destruct (d !! k); [|done].
  destruct Hnotin. eauto.
Qed.

Lemma add_keys_order d ks result :
  ks ≡ₚ keys d → add_keys d ks result = add_keys d (keys d) result.
Proof.
  intros Hperm.
  destruct (add_keys_any_order d ks result) as (r1 & -> & H1).
  { rewrite Hperm. apply NoDup_keys. }
  { intros k. rewrite Hperm. apply elem_of_keys. }
  destruct (add_keys_any_order d (keys d) result) as (r2 & -> & H2).
  { apply NoDup_keys. }
  { apply elem_of_keys. }
  f_equal. apply map_eq. intros k. by rewrite H1, H2.
Qed.

Lemma add_dicts_lookup dicts result :
  ∃ r, add_dicts dicts result = Ok r ∧
    ∀ k, r !! k = foldl add_entry (result !! k) ((λ d, d !! k) <$> dicts).
Proof.
  revert result. induction dicts as [|d dicts IH]; intros result.
  - by exists result.
  - destruct (add_keys_any_order d (keys d) result) as (r1 & Hr1 & H1).
    { apply NoDup_keys. }
    { apply elem_of_keys. }
    destruct (IH r1) as (r & Hr & Hlook).
    exists r. split.
    { simpl. rewrite Hr1. exact Hr. }
    intros k. rewrite Hlook, H1. done.
Qed.

Lemma foldl_add_entry o (vs : list (option Z)) :
  foldl add_entry o vs =
    match omap id vs with
    | [] => o
    | ns => Some (default 0 o + sum_Z ns)
    end.
Proof.
  revert o. induction vs as [|[n|] vs IH]; intros o; [done| |].
  - change (foldl add_entry o (Some n :: vs))
      with (foldl add_entry (Some (default 0 o + n)) vs).
    change (omap id (Some n :: vs)) with (n :: omap id vs).
    rewrite IH.
    destruct (omap id vs) as [|m ms]; unfold sum_Z; simpl;
      apply (f_equal Some); lia.
  - change (foldl add_entry o (None :: vs)) with (foldl add_entry o vs).
    change (omap id (None :: vs)) with (omap id vs).
    apply IH.
Qed.

Lemma omap_id_lookups key dicts :
  omap id ((λ d, d !! key) <$> dicts) = values_at key dicts.
Proof.
  unfold values_at. induction dicts as [|d dicts IH]; csimpl; [done|].
  rewrite IH. done.
Qed.

Lemma elem_of_values_at key dicts (v : Z) :
  v ∈ values_at key dicts ↔ ∃ d, d ∈ dicts ∧ d !! key = Some v.
Proof. unfold values_at. apply list_elem_of_omap. Qed.

Lemma sum_by_key_lookup dicts :
  ∃ result, sum_by_key dicts = Ok result ∧
    ∀ key, result !! key =
      match values_at key dicts with
      | [] => None
      | ns => Some (sum_Z ns)
      end.
Proof.
  destruct (add_dicts_lookup dicts ∅) as (r & Hr & Hlook).
  exists r. split; [done|]. intros key.
  rewrite Hlook, foldl_add_entry, omap_id_lookups, lookup_empty. simpl.
  by destruct (values_at key dicts).
Qed.
End counters_facts.

(** C1.  [sum_by_key] returns, for every finite sequence of dictionaries
    with integer values, a mapping whose key set is the union of the key
    sets of the dictionaries, and which maps each key to the sum of the
    values bound to it in the dictionaries that contain it. *)
Theorem sum_by_key_spec `{Countable K} (dicts : list (gmap K Z)) :
  ∃ result : gmap K Z,
    sum_by_key dicts = Ok result ∧
    dom result = ⋃ (dom <$> dicts) ∧
    ∀ key, key ∈ dom result → result !! key = Some (sum_Z (values_at key dicts)).
Proof.
  destruct (sum_by_key_lookup dicts) as (result & Hres & Hlook).
  exists result. split; [done|]. split.
  - apply set_eq. intros key.
    rewrite elem_of_dom, Hlook, elem_of_union_list.
    destruct (values_at key dicts) as [|n ns] eqn:Hvs.
    + split; [by intros [? ?]|].
      intros (X & HX & Hkey). apply list_elem_of_fmap in HX as (d & -> & Hd).
      apply elem_of_dom in Hkey as [v Hv].
      assert (v ∈ values_at key dicts) as Hin by (apply elem_of_values_at; eauto).
      rewrite Hvs in Hin. by apply elem_of_nil in Hin.
    + split; [|by eauto]. intros _.
      assert (n ∈ values_at key dicts) as Hin by (rewrite Hvs; left).
      apply elem_of_values_at in Hin as (d & Hd & Hn).
      exists (dom d). split; [apply list_elem_of_fmap; eauto|].
      apply elem_of_dom. eauto.
  - intros key Hkey. apply elem_of_dom in Hkey as [v Hv].
    rewrite Hlook in Hv |- *. by destruct (values_at key dicts).
Qed.

(** C2.  [count_words] on the string "a a b" is the mapping
    {"a": 2, "b": 1}. *)
Theorem count_words_a_a_b :
  count_words "a a b" = {["a"%string := 2; "b"%string := 1]}.
Proof. vm_compute. reflexivity. Qed.

(** C3.  [sum_by_key] on the dictionaries {"x": 1}, {"x": 2}, {"y": 5},
    in that order, is the mapping {"x": 3, "y": 5}. *)
Theorem sum_by_key_x_x_y :
  sum_by_key [{["x"%string := 1]}; {["x"%string := 2]}; {["y"%string := 5]}]
  = Ok {["x"%string := 3; "y"%string := 5]}.
Proof. vm_compute. reflexivity. Qed.

(** C4.  [load_textfile] declares the two outputs [str, int] and, when the
    file it reads holds [s], returns a sequence of exactly two values, as
    many as it declares: [s], then the length of [s]. *)
Theorem load_textfile_outputs (fs : filesystem) (url s : string) :
  fs url = Some s →
  return_types load_textfile_decl = [Str; Int] ∧
  ∃ vs, to_value <$> load_textfile fs url = Ok (VTuple vs) ∧
    vs = [VStr s; VInt (len s)] ∧
    length vs = 2%nat ∧
    length vs = length (return_types load_textfile_decl).
Proof.
  intros Hread. split; [done|].
  exists [VStr s; VInt (len s)]. unfold load_textfile. by rewrite Hread.
Qed.

Lemma load_textfile_outputs_witness :
  let fs : filesystem := λ url, if decide (url = "book.txt"%string) then Some "to be"%string else None in
  fs "book.txt"%string = Some "to be"%string ∧
  to_value <$> load_textfile fs "book.txt" = Ok (VTuple [VStr "to be"; VInt 5]).
Proof.
  intros fs. split; [reflexivity|].
  destruct (load_textfile_outputs fs "book.txt" "to be" eq_refl)
    as (_ & vs & -> & -> & _).
  reflexivity.
Defined.

(** ** Signatures *)

Lemma check_arguments_variadic (t : pytype) (args : list pytype) :
  check_arguments [Some t; None] args = true ↔ ∃ n, args = replicate (S n) t.
Proof.
  destruct args as [|a rest]; simpl.
  - split; [done|]. by intros [n ?].
  - rewrite andb_true_iff, bool_decide_eq_true, forallb_forall. split.
    + intros [-> Hrest]. exists (length rest). f_equal.
      symmetry. apply replicate_as_Forall. split; [done|].
      apply Forall_forall. intros b Hb.
      apply list_elem_of_In, Hrest, bool_decide_eq_true in Hb. done.
    + intros [n [= -> ->]]. split; [done|].
      intros b Hb. apply list_elem_of_In, elem_of_replicate in Hb as [-> _].
      by apply bool_decide_eq_true.
Qed.

(** C5.  Each variadic function of the example declares an input
    signature of two entries, one type followed by the placeholder [None]
    in the last position; read as the runtime reads it, the signature
    accepts that type once and then zero or more times again. *)
Theorem variadic_signatures :
  Forall (λ f, ∃ t,
      arg_types f = [Some t; None] ∧
      last (arg_types f) = Some None ∧
      ∀ args, check_arguments (arg_types f) args = true ↔
              ∃ n, args = t :: replicate n t)
    variadic_functions.
Proof.
  unfold variadic_functions.
  repeat first [apply Forall_nil_2 | apply Forall_cons_2];
    (eexists; split; [reflexivity|]; split; [reflexivity|];
     intros args; apply check_arguments_variadic).
Qed.

(** C6.  Every function of the example that declares exactly one output
    returns, on every input, one value of the declared type, not a
    sequence: [count_words] and [map_reduce] (a dict), and the same for
    the four others that declare one output. *)
Theorem single_output_returned_directly :
  (∀ data, returned_directly count_words_decl (to_value (count_words data))) ∧
  (∀ data, returned_directly map_reduce_decl (to_value (map_reduce data))) ∧
  (∀ data, returned_directly count_words_fast_decl (to_value (count_words_fast data))) ∧
  (∀ dicts : list (gmap string Z), ∃ result,
      sum_by_key dicts = Ok result ∧
      returned_directly sum_by_key_decl (to_value result)) ∧
  (∀ dicts : list (gmap string Z), ∃ n,
      sum_by_key_return_len dicts = Ok n ∧
      returned_directly sum_by_key_return_len_decl (to_value n)) ∧
  (∀ data, returned_directly map_reduce2_decl (to_value (map_reduce2 data))).
Proof.
  repeat split; try (intros; by eexists).
  - intros dicts. destruct (sum_by_key_lookup dicts) as (result & Hres & _).
    exists result. split; [done|]. by eexists.
  - intros dicts. destruct (sum_by_key_lookup dicts) as (result & Hres & _).
    exists (Z.of_nat (size result)). split; [|by eexists].
    unfold sum_by_key_return_len. unfold sum_by_key in Hres. by rewrite Hres.
Qed.

(** C9.  [map_reduce2] returns the integer 1 on every sequence of
    strings, whatever the counter it builds on the way. *)
Theorem map_reduce2_constant (data : list string) :
  map_reduce2 data = 1 ∧ ∀ data', map_reduce2 data' = map_reduce2 data.
Proof. split; reflexivity. Qed.

(** ** Counting characters *)

Section occurrences_facts.
Context `{Countable K}.
Implicit Types (c : gmap K Z) (l : list K) (k x : K).

Lemma occurrences_cons k x l :
  occurrences k (x :: l) =
    if decide (x = k) then S (occurrences k l) else occurrences k l.
Proof. unfold occurrences. rewrite filter_cons. by destruct (decide (x = k)). Qed.

Lemma occurrences_zero k l : occurrences k l = 0%nat ↔ k ∉ l.
Proof.
  induction l as [|x l IH]; [by split; [intros _; apply not_elem_of_nil|]|].
  rewrite occurrences_cons, not_elem_of_cons.
  destruct (decide (x = k)) as [->|Hne].
  - split; [done|]. by intros [? _].
  - rewrite IH. split; [by intros ?; split|by intros [_ ?]].
Qed.

Lemma Counter_update_lookup c l k :
  Counter_update c l !! k =
    match occurrences k l with
    | O => c !! k
    | S n => Some (default 0 (c !! k) + Z.of_nat (S n))
    end.
Proof.
  revert c. induction l as [|x l IH]; intros c; [done|].
  change (Counter_update c (x :: l)) with (Counter_update (iadd c x 1) l).
  rewrite IH, occurrences_cons, iadd_lookup.
  destruct (decide (x = k)) as [->|Hne].
  - destruct (occurrences k l); simpl; apply (f_equal Some); lia.
  - done.
Qed.
End occurrences_facts.

Lemma count_words_fast_Counter (data : string) :
  count_words_fast data = Counter (iter_str data).
Proof. reflexivity. Qed.

Lemma occurrences_iter_str (c : ascii) (data : string) :
  occurrences (String c EmptyString) (iter_str data)
  = occurrences c (list_ascii_of_string data).
Proof.
  unfold iter_str. induction (list_ascii_of_string data) as [|x l IH]; [done|].
  rewrite fmap_cons, !occurrences_cons, IH.
  destruct (decide (x = c)) as [->|Hne].
  - by rewrite decide_True.
  - rewrite decide_False; [done|]. by intros [= ->].
Qed.

(** C8.  [count_words_fast] counts characters, not words: its keys are the
    one-character strings of the characters of the input, white space
    included, each bound to the number of its occurrences; on "aa b" it
    differs from [count_words]. *)
Theorem count_words_fast_counts_characters :
  (∀ data key, key ∈ dom (count_words_fast data) ↔
      ∃ c, key = String c EmptyString ∧ c ∈ list_ascii_of_string data) ∧
  (∀ data c, count_words_fast data !! String c EmptyString =
      if decide (c ∈ list_ascii_of_string data)
      then Some (Z.of_nat (occurrences c (list_ascii_of_string data)))
      else None) ∧
  count_words_fast "aa b" = {["a"%string := 2; " "%string := 1; "b"%string := 1]} ∧
  count_words "aa b" = {["aa"%string := 1; "b"%string := 1]} ∧
  count_words_fast "aa b" ≠ count_words "aa b".
Proof.
  assert (∀ data c, count_words_fast data !! String c EmptyString =
      if decide (c ∈ list_ascii_of_string data)
      then Some (Z.of_nat (occurrences c (list_ascii_of_string data)))
      else None) as Hlook.
  { intros data c. rewrite count_words_fast_Counter. unfold Counter.
    rewrite Counter_update_lookup, occurrences_iter_str, lookup_empty.
    destruct (decide (c ∈ list_ascii_of_string data)) as [Hin|Hnotin].
    - destruct (occurrences c (list_ascii_of_string data)) eqn:Hocc.
      + apply occurrences_zero in Hocc. done.
      + simpl. apply (f_equal Some). lia.
    - apply occurrences_zero in Hnotin. by rewrite Hnotin. }
  split; [|split; [exact Hlook|]].
  - intros data key. rewrite elem_of_dom. split.
    + rewrite count_words_fast_Counter. unfold Counter.
      rewrite Counter_update_lookup, lookup_empty.
      destruct (occurrences key (iter_str data)) eqn:Hocc; [by intros [? ?]|].
      intros _. assert (key ∈ iter_str data) as Hin.
      { destruct (decide (key ∈ iter_str data)) as [|Hnotin]; [done|].
        apply occurrences_zero in Hnotin. congruence. }
      apply list_elem_of_fmap in Hin as (c & -> & Hc). eauto.
    + intros (c & -> & Hc). rewrite Hlook, decide_True by done. eauto.
  - split; [by vm_compute|]. split; [by vm_compute|].
    intros Heq. apply (f_equal (λ m : gmap string Z, m !! "a"%string)) in Heq.
    vm_compute in Heq. discriminate Heq.
Qed.

(** ** Partition sizing *)

Lemma pop_snoc {A} (l : list A) (x : A) : pop (l ++ [x]) = Some (l, x).
Proof. unfold pop. by rewrite reverse_snoc, reverse_involutive. Qed.

Lemma pop_nil {A} : pop (@nil A) = None.
Proof. reflexivity. Qed.

Lemma pop_Some {A} (l l' : list A) (x : A) : pop l = Some (l', x) → l = l' ++ [x].
Proof.
  destruct l as [|y l _] using rev_ind; [done|].
  rewrite pop_snoc. by intros [= -> ->].
Qed.

Lemma pop_None {A} (l : list A) : pop l = None → l = [].
Proof.
  destruct l as [|y l _] using rev_ind; [done|]. by rewrite pop_snoc.
Qed.

Lemma getitem_lt {A} (l : list A) (k : nat) :
  (k < length l)%nat → ∃ x, getitem l k = Ok x ∧ l !! k = Some x.
Proof.
  intros Hk. destruct (lookup_lt_is_Some_2 l k Hk) as [x Hx].
  exists x. unfold getitem. by rewrite Hx.
Qed.

Lemma concat_insert_snoc {A} (ls : list (list A)) (i : nat) (l : list A) (x : A) :
  ls !! i = Some l → concat (<[i := l ++ [x]]> ls) ≡ₚ x :: concat ls.
Proof.
  revert i. induction ls as [|l0 ls IH]; intros [|i] Hi; simplify_eq/=.
  - rewrite <- app_assoc. simpl. by rewrite <- Permutation_middle.
  - rewrite (IH i Hi). by rewrite <- Permutation_middle.
Qed.

Lemma insert_by_key_Permutation x l : insert_by_key x l ≡ₚ x :: l.
Proof.
  induction l as [|y l IH]; simpl; [done|].
  destruct (decide (x.1 ≤ y.1)); [done|]. rewrite IH. apply Permutation_swap.
Qed.

Lemma sort_by_key_Permutation l : sort_by_key l ≡ₚ l.
Proof.
  induction l as [|x l IH]; simpl; [done|].
  by rewrite insert_by_key_Permutation, IH.
Qed.

(** [sort_by_key] sorts by key and is stable, which determines its
    result: it is the list that [sorted] returns. *)
Lemma insert_by_key_sorted x l :
  StronglySorted (λ a b : Z * nat, a.1 ≤ b.1) l →
  StronglySorted (λ a b : Z * nat, a.1 ≤ b.1) (insert_by_key x l).
Proof.
  induction 1 as [|y l Hsorted IH Hy]; simpl.
  - repeat constructor.
  - destruct (decide (x.1 ≤ y.1)) as [Hle|Hgt].
    + constructor; [by constructor|]. constructor; [done|].
      eapply Forall_impl; [exact Hy|]. simpl. intros b Hb. lia.
    + constructor; [done|]. rewrite insert_by_key_Permutation.
      constructor; [lia|done].
Qed.

Lemma sort_by_key_sorted l :
  StronglySorted (λ a b : Z * nat, a.1 ≤ b.1) (sort_by_key l).
Proof.
  induction l as [|x l IH]; simpl; [constructor|].
  by apply insert_by_key_sorted.
Qed.

Lemma insert_by_key_stable (z : Z) x l :
  filter (λ y : Z * nat, y.1 = z) (insert_by_key x l)
  = filter (λ y : Z * nat, y.1 = z) (x :: l).
Proof.
  induction l as [|y l IH]; simpl; [done|].
  destruct (decide (x.1 ≤ y.1)) as [Hle|Hgt]; [done|].
  rewrite (filter_cons _ y), IH, !filter_cons.
  destruct (decide (x.1 = z)), (decide (y.1 = z)); try done. lia.
Qed.

Lemma sort_by_key_stable (z : Z) l :
  filter (λ y : Z * nat, y.1 = z) (sort_by_key l)
  = filter (λ y : Z * nat, y.1 = z) l.
Proof.
  induction l as [|x l IH]; simpl; [done|].
  by rewrite insert_by_key_stable, !filter_cons, IH.
Qed.

Lemma map_res_getitem {A} (sizes : list A) (l : list nat) :
  Forall (λ k, (k < length sizes)%nat) l →
  ∃ ks, map_res (getitem sizes) l = Ok ks ∧ length ks = length l.
Proof.
  induction 1 as [|k l Hk _ (ks & Hks & Hlen)]; [by exists []|].
  destruct (getitem_lt sizes k Hk) as (x & Hx & _).
  exists (x :: ks). simpl. rewrite Hx. simpl. rewrite Hks. simpl.
  by rewrite Hlen.
Qed.

(** [sorted] raises nothing on indices of [sizes], and permutes them. *)
Lemma sorted_Permutation (sizes : list Z) (l : list nat) :
  Forall (λ k, (k < length sizes)%nat) l →
  ∃ perm, sorted l (λ k, getitem sizes k) = Ok perm ∧ perm ≡ₚ l.
Proof.
  intros Hl. destruct (map_res_getitem sizes l Hl) as (ks & Hks & Hlen).
  exists ((sort_by_key (zip ks l)).*2). split.
  - unfold sorted. change (λ k, getitem sizes k) with (getitem sizes).
    by rewrite Hks.
  - rewrite sort_by_key_Permutation. rewrite snd_zip by lia. done.
Qed.

(** The inner loop runs until [head] is empty, raises nothing, and moves
    every element of [head] to the partition or to [tail]. *)
Lemma while_head_exits (sizes : list Z) (partition_size : Z) (partition : nat)
    (fuel : nat) (head tail : list nat) (result : list (list nat)) (cur_size : Z) :
  (length head ≤ fuel)%nat →
  Forall (λ k, (k < length sizes)%nat) head →
  Forall (λ k, (k < length sizes)%nat) tail →
  (partition < length result)%nat →
  ∃ tail' result',
    while_head fuel sizes partition_size partition head tail result cur_size
      = Ok ([], tail', result') ∧
    Forall (λ k, (k < length sizes)%nat) tail' ∧
    length result' = length result ∧
    concat result' ++ tail' ≡ₚ concat result ++ tail ++ head.
Proof.
  revert head tail result cur_size.
  induction fuel as [|fuel IH];
    intros head tail result cur_size Hfuel Hhead Htail Hpart.
  - destruct head; [|simpl in Hfuel; lia].
    exists tail, result. by rewrite app_nil_r.
  - simpl. destruct (pop head) as [[head' elem]|] eqn:Hpop.
    + apply pop_Some in Hpop as ->.
      apply Forall_app in Hhead as [Hhead' Helem].
      rewrite Forall_singleton in Helem.
      rewrite length_app in Hfuel. simpl in Hfuel.
      destruct (getitem_lt sizes elem Helem) as (size & -> & _). simpl.
      destruct (decide (size ≤ partition_size - cur_size)).
      * destruct (getitem_lt result partition Hpart) as (part & -> & Hlook). simpl.
        destruct (IH head' tail (<[partition := part ++ [elem]]> result)
                    (cur_size + size))
          as (tail' & result' & Hrun & Htail' & Hlen & Hperm).
        { lia. } { done. } { done. } { by rewrite length_insert. }
        exists tail', result'. split; [done|]. split; [done|].
        rewrite length_insert in Hlen. split; [done|].
        rewrite Hperm, (concat_insert_snoc _ _ _ _ Hlook).
        rewrite !app_assoc. by rewrite <- Permutation_cons_append.
      * destruct (IH head' (tail ++ [elem]) result cur_size)
          as (tail' & result' & Hrun & Htail' & Hlen & Hperm).
        { lia. } { done. }
        { apply Forall_app. split; [done|]. by apply Forall_singleton. }
        { done. }
        exists tail', result'. split; [done|]. split; [done|]. split; [done|].
        rewrite Hperm. apply Permutation_app_head.
        rewrite <- !app_assoc. apply Permutation_app_head, Permutation_app_comm.
    + apply pop_None in Hpop as ->.
      exists tail, result. by rewrite app_nil_r.
Qed.

(** The outer loop raises nothing and keeps every element, in a
    partition or in what is left in [head]. *)
Lemma for_partition_keeps (sizes : list Z) (partition_size : Z)
    (partitions : list nat) (head : list nat) (result : list (list nat)) :
  Forall (λ p, (p < length result)%nat) partitions →
  Forall (λ k, (k < length sizes)%nat) head →
  ∃ head' result',
    for_partition partitions sizes partition_size head result = Ok (head', result') ∧
    length result' = length result ∧
    concat result' ++ head' ≡ₚ concat result ++ head.
Proof.
  revert head result.
  induction partitions as [|partition rest IH]; intros head result Hparts Hhead.
  - by exists head, result.
  - apply Forall_cons in Hparts as [Hpart Hrest].
    destruct (while_head_exits sizes partition_size partition (length head)
                head [] result 0)
      as (tail & result1 & Hrun & Htail & Hlen & Hperm); [done..|].
    simpl in Hperm.
    destruct (IH (reverse tail) result1) as (head' & result' & Hfor & Hlen' & Hperm').
    { by rewrite Hlen. }
    { by rewrite reverse_Permutation. }
    exists head', result'. split.
    { simpl. rewrite Hrun. simpl. exact Hfor. }
    split; [congruence|].
    by rewrite Hperm', reverse_Permutation, Hperm.
Qed.

Lemma concat_empty_lists {A B} (l : list B) :
  concat ((λ _, @nil A) <$> l) = [].
Proof. induction l as [|x l IH]; [done|]. by rewrite fmap_cons. Qed.

Lemma range_of_nat (n : nat) : range (Z.of_nat n) = seq 0 n.
Proof. unfold range. by rewrite Nat2Z.id. Qed.

(** When the concatenation of the lists has no duplicate, an element is
    in one list only. *)
Lemma NoDup_concat_unique {A} (ls : list (list A)) (j1 j2 : nat)
    (l1 l2 : list A) (x : A) :
  NoDup (concat ls) →
  ls !! j1 = Some l1 → ls !! j2 = Some l2 → x ∈ l1 → x ∈ l2 → j1 = j2.
Proof.
  revert j1 j2. induction ls as [|l ls IH]; intros j1 j2 Hnd H1 H2 Hx1 Hx2.
  - done.
  - simpl in Hnd. apply NoDup_app in Hnd as (_ & Hdisj & Hnd).
    assert (∀ j l', ls !! j = Some l' → x ∈ l' → x ∈ concat ls) as Hin.
    { intros j l' Hj Hl'. apply list_elem_of_In, in_concat.
      exists l'. split; apply list_elem_of_In; [|done].
      apply list_elem_of_lookup. eauto. }
    destruct j1 as [|j1], j2 as [|j2]; simplify_eq/=.
    + done.
    + destruct (Hdisj x Hx1). eauto.
    + destruct (Hdisj x Hx2). eauto.
    + f_equal. eauto.
Qed.

(** On every list of sizes and every [num_partitions] that is at least 1,
    [split_partitions] raises nothing and returns [num_partitions] lists
    whose concatenation is a permutation of the indices. *)
Lemma split_partitions_Permutation (sizes : list Z) (num_partitions : Z) :
  1 ≤ num_partitions →
  ∃ result, split_partitions sizes num_partitions = Ok result ∧
    Z.of_nat (length result) = num_partitions ∧
    concat result ≡ₚ seq 0 (length sizes).
Proof.
  intros Hnum. unfold split_partitions, floordiv.
  rewrite decide_False by lia. cbn [mbind res_bind].
  rewrite !range_of_nat.
  destruct (sorted_Permutation sizes (seq 0 (length sizes)))
    as (perm & -> & Hperm).
  { apply Forall_seq. intros k Hk. lia. }
  cbn [mbind res_bind].
  set (result := (λ _, []) <$> range (num_partitions - 1)).
  destruct (for_partition_keeps sizes
      ((py_sum sizes + num_partitions - 1) `div` num_partitions)
      (seq 0 (length result)) perm result)
    as (head' & result' & -> & Hlen & Hkeep).
  { apply Forall_seq. intros k Hk. lia. }
  { by rewrite Hperm; apply Forall_seq; intros k Hk; lia. }
  simpl. exists (result' ++ [head']). split; [done|]. split.
  - rewrite length_app, Hlen. subst result. unfold range.
    rewrite length_fmap, length_seq. simpl. lia.
  - rewrite concat_app. simpl. rewrite app_nil_r, Hkeep.
    subst result. by rewrite concat_empty_lists.
Qed.

(** C10.  For every list of sizes that are not negative and every
    [num_partitions] that is at least 1, [split_partitions] returns
    exactly [num_partitions] lists that partition the indices
    0, ..., len(sizes)-1: their concatenation is a permutation of the
    indices, so that every index is in exactly one of the lists. *)
Theorem split_partitions_partition (sizes : list Z) (num_partitions : Z) :
  Forall (λ size, 0 ≤ size) sizes →
  1 ≤ num_partitions →
  ∃ result, split_partitions sizes num_partitions = Ok result ∧
    Z.of_nat (length result) = num_partitions ∧
    concat result ≡ₚ seq 0 (length sizes) ∧
    ∀ i, (i < length sizes)%nat →
      ∃ j, in_partition result j i ∧ ∀ j', in_partition result j' i → j' = j.
Proof.
  intros _ Hnum.
  destruct (split_partitions_Permutation sizes num_partitions Hnum)
    as (result & Hres & Hlen & Hperm).
  exists result. do 3 (split; [done|]).
  intros i Hi.
  assert (i ∈ concat result) as Hin.
  { rewrite Hperm. apply elem_of_seq. lia. }
  apply list_elem_of_In, in_concat in Hin as (l & Hl & Hil).
  apply list_elem_of_In, list_elem_of_lookup in Hl as [j Hj].
  apply list_elem_of_In in Hil.
  exists j. split; [by exists l|].
  intros j' (l' & Hj' & Hil').
  apply (NoDup_concat_unique result j' j l' l i); try done.
  rewrite Hperm. apply NoDup_seq.
Qed.

Lemma split_partitions_partition_witness :
  Forall (λ size, 0 ≤ size) [5; 1; 2; 2; 7; 3] ∧ 1 ≤ 3 ∧
  ∃ result, split_partitions [5; 1; 2; 2; 7; 3] 3 = Ok result ∧
    Z.of_nat (length result) = 3 ∧
    concat result ≡ₚ seq 0 6.
Proof.
  assert (Forall (λ size, 0 ≤ size) [5; 1; 2; 2; 7; 3]) as Hsizes.
  { repeat first [apply Forall_nil_2 | apply Forall_cons_2]; lia. }
  assert (1 ≤ 3) as Hnum by lia.
  split; [exact Hsizes|]. split; [exact Hnum|].
  destruct (split_partitions_partition [5; 1; 2; 2; 7; 3] 3 Hsizes Hnum)
    as (result & Hres & Hlen & Hperm & _).
  exists result. done.
Defined.

(** ** The object store *)

Section store_facts.
Import ObjectStore.
Context {V : Type}.
Implicit Types (st : gmap ObjectId (option V)) (oid : ObjectId) (v : V).

Lemma put_filled st oid v v' :
  value_of st oid = Some v → put oid v' st = (inl DuplicateWriteError, st).
Proof. intros Hv. unfold put. by rewrite Hv. Qed.

Lemma put_done st0 st oid v :
  put oid v st0 = (inr (), st) → value_of st oid = Some v.
Proof.
  unfold put. destruct (value_of st0 oid); intros [= <-].
  unfold value_of. by rewrite lookup_insert_eq.
Qed.

(** No request changes a value that is there. *)
Lemma step_keeps_value (r : request) st oid v :
  value_of st oid = Some v → value_of (step r st).2 oid = Some v.
Proof.
  intros Hv. destruct r as [oid' v'| | |oid']; simpl; try done.
  - unfold put. destruct (value_of st oid') eqn:Hoid'; simpl; [done|].
    destruct (decide (oid' = oid)) as [->|Hne]; [congruence|].
    unfold value_of. rewrite lookup_insert_ne by done. exact Hv.
  - unfold create. destruct (st !! oid') eqn:Hoid'; [done|].
    destruct (decide (oid' = oid)) as [->|Hne].
    + unfold value_of in Hv. by rewrite Hoid' in Hv.
    + unfold value_of. rewrite lookup_insert_ne by done. exact Hv.
Qed.

Lemma run_cons (r : request) (reqs : list request) st :
  run (r :: reqs) st =
    ((step r st).1 :: (run reqs (step r st).2).1, (run reqs (step r st).2).2).
Proof. simpl. destruct (step r st), (run reqs _). done. Qed.

Lemma run_keeps_value (reqs : list request) st oid v :
  value_of st oid = Some v →
  value_of (run reqs st).2 oid = Some v ∧
  ∀ i v', reqs !! i = Some (Put oid v') →
          (run reqs st).1 !! i = Some (Failed DuplicateWriteError).
Proof.
  revert st. induction reqs as [|r reqs IH]; intros st Hv.
  - split; [done|]. intros i v' Hi. by rewrite lookup_nil in Hi.
  - rewrite run_cons. simpl.
    destruct (IH (step r st).2 (step_keeps_value r st oid v Hv)) as [Hkeep Hfail].
    split; [done|]. intros [|i] v' Hi; simpl in Hi |- *.
    + injection Hi as ->. simpl. by rewrite (put_filled st oid v v' Hv).
    + by eapply Hfail.
Qed.
End store_facts.

(** C7.  A put succeeds at most once for an ObjectId: once a put has
    stored a value for it, the value stays as it is through every later
    request, and every later put on that ObjectId fails with
    [DuplicateWriteError] and leaves the store as it is. *)
Theorem put_at_most_once {V : Type}
    (st0 st : gmap ObjectStore.ObjectId (option V))
    (oid : ObjectStore.ObjectId) (v : V) :
  ObjectStore.put oid v st0 = (inr (), st) →
  ObjectStore.get oid st = Some v ∧
  ∀ reqs : list ObjectStore.request,
    let st' := (ObjectStore.run reqs st).2 in
    ObjectStore.get oid st' = Some v ∧
    (∀ i v', reqs !! i = Some (ObjectStore.Put oid v') →
       (ObjectStore.run reqs st).1 !! i
       = Some (ObjectStore.Failed ObjectStore.DuplicateWriteError)) ∧
    (∀ v', ObjectStore.put oid v' st'
           = (inl ObjectStore.DuplicateWriteError, st')).
Proof.
  intros Hput. apply put_done in Hput. split; [exact Hput|].
  intros reqs st'.
  destruct (run_keeps_value reqs st oid v Hput) as [Hkeep Hfail].
  split; [exact Hkeep|]. split; [exact Hfail|].
  intros v'. by apply put_filled with v.
Qed.

Lemma put_at_most_once_witness :
  ObjectStore.put 7%N "first"%string ∅ = (inr (), {[7%N := Some "first"%string]}) ∧
  ObjectStore.put 7%N "second"%string {[7%N := Some "first"%string]}
  = (inl ObjectStore.DuplicateWriteError, {[7%N := Some "first"%string]}).
Proof.
  assert (ObjectStore.put 7%N "first"%string ∅
          = (inr (), {[7%N := Some "first"%string]})) as Hput by reflexivity.
  split; [exact Hput|].
  destruct (put_at_most_once _ _ _ _ Hput) as [_ Hlater].
  destruct (Hlater []) as (_ & _ & Hfail).
  exact (Hfail "second"%string).
Defined.

(** * Further properties of the example *)

(** ** Splitting into words *)

Lemma list_ascii_of_string_app (a b : string) :
  list_ascii_of_string (a +:+ b) = list_ascii_of_string a ++ list_ascii_of_string b.
Proof. induction a as [|c a IH]; simpl; [done|]. by rewrite IH. Qed.

Lemma no_space_snoc (word : string) (c : ascii) :
  no_space word → isspace c = false → no_space (word +:+ String c EmptyString).
Proof.
  unfold no_space. intros Hword Hc. rewrite list_ascii_of_string_app.
  apply Forall_app. split; [done|]. by apply Forall_singleton.
Qed.

Lemma snoc_not_empty (word : string) (c : ascii) :
  word +:+ String c EmptyString ≠ EmptyString.
Proof. by destruct word. Qed.

Lemma split_from_clean (data word : string) :
  no_space word →
  Forall (λ w, w ≠ EmptyString ∧ no_space w) (split_from word data).
Proof.
  revert word. induction data as [|c data IH]; intros word Hword; simpl.
  - destruct word as [|x word]; [constructor|].
    apply Forall_cons_2; [by split|constructor].
  - destruct (isspace c) eqn:Hc.
    + destruct word as [|x word].
      * apply IH. constructor.
      * apply Forall_cons_2; [by split|]. apply IH. constructor.
    + apply IH. by apply no_space_snoc.
Qed.

Lemma split_from_app (a b word : string) (c : ascii) :
  isspace c = true →
  split_from word (a +:+ String c b) = split_from word a ++ split b.
Proof.
  intros Hc. revert word. induction a as [|x a IH]; intros word; simpl.
  - rewrite Hc. by destruct word.
  - destruct (isspace x).
    + destruct word; simpl; by rewrite IH.
    + apply IH.
Qed.

Lemma split_from_nil (data word : string) :
  split_from word data = [] ↔ word = EmptyString ∧ all_space data.
Proof.
  revert word. induction data as [|c data IH]; intros word; simpl.
  - destruct word; split; try done.
    + intros _. split; [done|]. constructor.
    + by intros [? _].
  - unfold all_space. simpl. rewrite Forall_cons.
    destruct (isspace c) eqn:Hc.
    + destruct word.
      * rewrite IH. unfold all_space.
        split; [intros [_ ?]; by repeat split|intros [_ [_ ?]]; by split].
      * split; [done|]. by intros [? _].
    + rewrite IH. split.
      * intros [Hword _]. by apply snoc_not_empty in Hword.
      * intros [_ [? _]]. done.
Qed.

(** No word of [data.split()] is empty or holds white space. *)
Lemma split_words_clean (data : string) :
  Forall (λ w, w ≠ EmptyString ∧ no_space w) (split data).
Proof. apply split_from_clean. constructor. Qed.

(** [data.split()] is empty exactly when [data] is white space only (the
    empty string included). *)
Lemma split_nil_iff (data : string) :
  split data = [] ↔ all_space data.
Proof.
  unfold split. rewrite split_from_nil.
  split; [by intros [_ ?]|by intros ?; split].
Qed.

(** Splitting two texts joined by a white-space character gives the
    words of the first, then the words of the second. *)
Lemma split_app (a b : string) (c : ascii) :
  isspace c = true → split (a +:+ String c b) = split a ++ split b.
Proof. apply split_from_app. Qed.

(** ** Counting and adding up, in general *)

Lemma sum_Z_app (l1 l2 : list Z) : sum_Z (l1 ++ l2) = sum_Z l1 + sum_Z l2.
Proof.
  unfold sum_Z. induction l1 as [|x l1 IH]; simpl; [done|]. lia.
Qed.

Lemma sum_Z_Permutation (l1 l2 : list Z) : l1 ≡ₚ l2 → sum_Z l1 = sum_Z l2.
Proof.
  unfold sum_Z. induction 1 as [|x l1 l2 _ IH|x y l|l1 l2 l3 _ IH1 _ IH2];
    simpl; lia.
Qed.

Lemma add_entry_None (o : option Z) : add_entry None o = o.
Proof. by destruct o as [n|]. Qed.

Section reduce_facts.
Context `{Countable K}.
Implicit Types (c d result : gmap K Z) (dicts : list (gmap K Z)) (k key : K)
  (l : list K).

Lemma Counter_lookup l k :
  Counter l !! k =
    match occurrences k l with
    | O => None
    | S n => Some (Z.of_nat (S n))
    end.
Proof.
  unfold Counter. rewrite Counter_update_lookup, lookup_empty.
  by destruct (occurrences k l).
Qed.

Lemma Counter_update_add_entry c l k :
  Counter_update c l !! k = add_entry (c !! k) (Counter l !! k).
Proof.
  rewrite Counter_update_lookup, Counter_lookup.
  by destruct (occurrences k l).
Qed.

Lemma values_at_app key dicts1 dicts2 :
  values_at key (dicts1 ++ dicts2) = values_at key dicts1 ++ values_at key dicts2.
Proof. unfold values_at. apply omap_app. Qed.

Lemma sum_by_key_eq dicts result :
  (∀ key, result !! key = foldl add_entry None ((λ d, d !! key) <$> dicts)) →
  sum_by_key dicts = Ok result.
Proof.
  intros Hresult. destruct (add_dicts_lookup dicts ∅) as (r & Hr & Hlook).
  unfold sum_by_key. rewrite Hr. f_equal. apply map_eq. intros key.
  by rewrite Hlook, Hresult, lookup_empty.
Qed.

Lemma sum_by_key_perm dicts dicts' :
  dicts ≡ₚ dicts' → sum_by_key dicts = sum_by_key dicts'.
Proof.
  intros Hperm.
  destruct (sum_by_key_lookup dicts) as (r & -> & Hr).
  destruct (sum_by_key_lookup dicts') as (r' & -> & Hr').
  f_equal. apply map_eq. intros key. rewrite Hr, Hr'.
  assert (values_at key dicts ≡ₚ values_at key dicts') as Hvs.
  { unfold values_at. by rewrite Hperm. }
  destruct (values_at key dicts) as [|n ns], (values_at key dicts') as [|n' ns'].
  - done.
  - by apply Permutation_nil_cons in Hvs.
  - symmetry in Hvs. by apply Permutation_nil_cons in Hvs.
  - f_equal. by apply sum_Z_Permutation.
Qed.

(** The dictionaries may come in any order. *)
Theorem sum_by_key_Permutation dicts dicts' :
  dicts ≡ₚ dicts' → sum_by_key dicts = sum_by_key dicts'.
Proof. apply sum_by_key_perm. Qed.

(** The sum of one dictionary is that dictionary. *)
Theorem sum_by_key_singleton d : sum_by_key [d] = Ok d.
Proof. apply sum_by_key_eq. intros key. simpl. by rewrite add_entry_None. Qed.

(** Sums may be added up: the sum of two partial sums is the sum of all
    the dictionaries. *)
Theorem sum_by_key_app dicts1 dicts2 :
  ∃ r1 r2,
    sum_by_key dicts1 = Ok r1 ∧ sum_by_key dicts2 = Ok r2 ∧
    sum_by_key [r1; r2] = sum_by_key (dicts1 ++ dicts2).
Proof.
  destruct (add_dicts_lookup dicts1 ∅) as (r1 & Hr1 & H1).
  destruct (add_dicts_lookup dicts2 ∅) as (r2 & Hr2 & H2).
  destruct (add_dicts_lookup (dicts1 ++ dicts2) ∅) as (r & Hr & Hlook).
  exists r1, r2. do 2 (split; [done|]).
  unfold sum_by_key at 2. rewrite Hr. apply sum_by_key_eq. intros key.
  rewrite Hlook, fmap_app, foldl_app, <- H1. simpl.
  rewrite add_entry_None, H2, lookup_empty.
  rewrite !foldl_add_entry. by destruct (omap id _) as [|n ns].
Qed.

Lemma sum_by_key_keys dicts :
  ∃ result, sum_by_key dicts = Ok result ∧ dom result = ⋃ (dom <$> dicts).
Proof.
  destruct (sum_by_key_lookup dicts) as (result & Hres & Hlook).
  exists result. split; [done|]. apply set_eq. intros key.
  rewrite elem_of_dom, Hlook, elem_of_union_list.
  destruct (values_at key dicts) as [|n ns] eqn:Hvs.
  - split; [by intros [? ?]|].
    intros (X & HX & Hkey). apply list_elem_of_fmap in HX as (d & -> & Hd).
    apply elem_of_dom in Hkey as [v Hv].
    assert (v ∈ values_at key dicts) as Hin by (apply elem_of_values_at; eauto).
    rewrite Hvs in Hin. by apply elem_of_nil in Hin.
  - split; [|by eauto]. intros _.
    assert (n ∈ values_at key dicts) as Hin by (rewrite Hvs; left).
    apply elem_of_values_at in Hin as (d & Hd & Hn).
    exists (dom d). split; [apply list_elem_of_fmap; eauto|].
    apply elem_of_dom. eauto.
Qed.

(** [sum_by_key_return_len] returns the number of distinct keys of the
    dictionaries, which is the length of what [sum_by_key] returns. *)
Theorem sum_by_key_return_len_keys dicts :
  sum_by_key_return_len dicts = Ok (Z.of_nat (size (⋃ (dom <$> dicts)))) ∧
  sum_by_key_return_len dicts = (λ result, Z.of_nat (size result)) <$> sum_by_key dicts.
Proof.
  destruct (sum_by_key_keys dicts) as (result & Hres & Hdom).
  unfold sum_by_key_return_len. unfold sum_by_key in Hres |- *. rewrite Hres.
  simpl. split; [|done]. by rewrite <- Hdom, size_dom.
Qed.

(** Two counters add up to the counter of the two lists together. *)
Lemma sum_by_key_Counter (l1 l2 : list K) :
  sum_by_key [Counter l1; Counter l2] = Ok (Counter (l1 ++ l2)).
Proof.
  apply sum_by_key_eq. intros key. simpl. rewrite add_entry_None.
  unfold Counter at 1. unfold Counter_update. rewrite foldl_app.
  fold (Counter_update ∅ l1). fold (Counter l1).
  apply Counter_update_add_entry.
Qed.
End reduce_facts.

Lemma sum_by_key_Permutation_witness :
  sum_by_key [({[1%nat := 2]} : gmap nat Z); {[1%nat := 3; 2%nat := 4]}]
  = sum_by_key [({[1%nat := 3; 2%nat := 4]} : gmap nat Z); {[1%nat := 2]}].
Proof. apply sum_by_key_Permutation, Permutation_swap. Defined.

(** ** Word counts *)

(** [count_words] binds exactly the words of [data.split()], each to the
    number of its occurrences; a count is at least 1, and no key is empty
    or holds white space. *)
Theorem count_words_counts_words (data : string) :
  (∀ w, count_words data !! w =
     if decide (w ∈ split data)
     then Some (Z.of_nat (occurrences w (split data)))
     else None) ∧
  (∀ w n, count_words data !! w = Some n →
     1 ≤ n ∧ w ≠ EmptyString ∧ no_space w).
Proof.
  assert (∀ w, count_words data !! w =
     if decide (w ∈ split data)
     then Some (Z.of_nat (occurrences w (split data)))
     else None) as Hlook.
  { intros w. unfold count_words. rewrite Counter_lookup.
    destruct (decide (w ∈ split data)) as [Hin|Hnotin].
    - destruct (occurrences w (split data)) eqn:Hocc; [|done].
      by apply occurrences_zero in Hocc.
    - apply occurrences_zero in Hnotin. by rewrite Hnotin. }
  split; [exact Hlook|]. intros w n. rewrite Hlook.
  destruct (decide (w ∈ split data)) as [Hin|]; [|done]. intros [= <-].
  split.
  - destruct (occurrences w (split data)) eqn:Hocc; [|lia].
    by apply occurrences_zero in Hocc.
  - pose proof (split_words_clean data) as Hclean.
    by eapply Forall_forall in Hclean.
Qed.

(** A text of white space only, the empty text included, has no word:
    [count_words] returns the empty mapping, and only then. *)
Theorem count_words_empty_iff (data : string) :
  count_words data = ∅ ↔ all_space data.
Proof.
  rewrite <- split_nil_iff. unfold count_words. split.
  - intros Hempty. destruct (split data) as [|w ws] eqn:Hsplit; [done|].
    apply (f_equal (λ m : gmap string Z, m !! w)) in Hempty.
    rewrite Counter_lookup, lookup_empty, occurrences_cons in Hempty.
    by rewrite decide_True in Hempty.
  - by intros ->.
Qed.

(** The counts of two texts, added up by [sum_by_key], are the counts of
    the two texts joined by a white-space character. *)
Theorem count_words_app (a b : string) (c : ascii) :
  isspace c = true →
  sum_by_key [count_words a; count_words b] = Ok (count_words (a +:+ String c b)).
Proof.
  intros Hc. unfold count_words. rewrite (split_app a b c Hc).
  apply sum_by_key_Counter.
Qed.

Lemma count_words_app_witness :
  isspace " " = true ∧
  sum_by_key [count_words "a b"; count_words "b c"] = Ok (count_words "a b b c").
Proof.
  split; [reflexivity|]. exact (count_words_app "a b" "b c" " " eq_refl).
Defined.

Lemma map_reduce_lookup (data : list string) (c : gmap string Z) (w : string) :
  foldl (λ c s, Counter_update c (split s)) c data !! w
  = foldl add_entry (c !! w) ((λ d : gmap string Z, d !! w) <$> (count_words <$> data)).
Proof.
  revert c. induction data as [|s data IH]; intros c; [done|].
  simpl. rewrite IH. by rewrite Counter_update_add_entry.
Qed.

Lemma map_reduce_as_sum (data : list string) :
  sum_by_key (count_words <$> data) = Ok (map_reduce data).
Proof.
  apply sum_by_key_eq. intros w. unfold map_reduce.
  by rewrite map_reduce_lookup, lookup_empty.
Qed.

(** [map_reduce] on the texts is [sum_by_key] on their [count_words]:
    counting in one task and counting per text then adding up agree. *)
Theorem map_reduce_sum_by_key (data : list string) :
  sum_by_key (count_words <$> data) = Ok (map_reduce data).
Proof. apply map_reduce_as_sum. Qed.

(** ** Totals *)

Section total_facts.
Context `{Countable K}.
Implicit Types (c d result : gmap K Z) (dicts : list (gmap K Z)) (k key : K).

Lemma total_empty : total (∅ : gmap K Z) = 0.
Proof. unfold total. by rewrite map_to_list_empty. Qed.

Lemma total_insert c k (x : Z) :
  c !! k = None → total (<[k := x]> c) = x + total c.
Proof.
  intros Hk. unfold total.
  rewrite (sum_Z_Permutation _ ((k, x) :: map_to_list c).*2); [done|].
  by rewrite map_to_list_insert.
Qed.

Lemma total_iadd c k (n : Z) : total (iadd c k n) = total c + n.
Proof.
  unfold iadd. destruct (c !! k) as [v|] eqn:Hk; simpl.
  - rewrite <- (insert_delete_id c k v Hk) at 2.
    rewrite <- insert_delete_eq.
    rewrite !total_insert by apply lookup_delete_eq. lia.
  - rewrite total_insert by done. lia.
Qed.

Lemma total_Counter_update c (l : list K) :
  total (Counter_update c l) = total c + Z.of_nat (length l).
Proof.
  revert c. induction l as [|x l IH]; intros c; simpl; [lia|].
  fold (Counter_update (iadd c x 1) l). rewrite IH, total_iadd. lia.
Qed.

Lemma add_keys_total d (l : list (K * Z)) result :
  (∀ k v, (k, v) ∈ l → d !! k = Some v) →
  ∃ r, add_keys d l.*1 result = Ok r ∧ total r = total result + sum_Z l.*2.
Proof.
  revert result. induction l as [|[k v] l IH]; intros result Hl.
  - exists result. split; [done|]. unfold sum_Z. simpl. lia.
  - destruct (IH (iadd result k v)) as (r & Hr & Htotal).
    { intros k' v' Hin. apply Hl. by right. }
    exists r. split.
    + simpl. rewrite (Hl k v) by left. simpl. exact Hr.
    + rewrite Htotal, total_iadd. unfold sum_Z. csimpl. lia.
Qed.

Lemma add_dicts_total dicts result :
  ∃ r, add_dicts dicts result = Ok r ∧
    total r = total result + sum_Z (total <$> dicts).
Proof.
  revert result. induction dicts as [|d dicts IH]; intros result.
  - exists result. split; [done|]. unfold sum_Z. simpl. lia.
  - destruct (add_keys_total d (map_to_list d) result) as (r1 & Hr1 & Ht1).
    { intros k v Hkv. by apply elem_of_map_to_list. }
    destruct (IH r1) as (r & Hr & Ht).
    exists r. split.
    + simpl. unfold keys. rewrite Hr1. exact Hr.
    + rewrite Ht, Ht1. unfold sum_Z. csimpl. unfold total, sum_Z. lia.
Qed.

(** Adding up loses nothing: the values of the sum add up to the values
    of all the dictionaries. *)
Theorem sum_by_key_total dicts :
  ∃ result, sum_by_key dicts = Ok result ∧
    total result = sum_Z (total <$> dicts).
Proof.
  destruct (add_dicts_total dicts ∅) as (r & Hr & Ht).
  exists r. split; [done|]. rewrite Ht, total_empty. lia.
Qed.
End total_facts.

Lemma length_iter_str (data : string) :
  length (iter_str data) = String.length data.
Proof.
  unfold iter_str. rewrite length_fmap.
  induction data as [|c data IH]; simpl; [done|]. by rewrite IH.
Qed.

(** The counts add up to what was counted: the words of the text for
    [count_words], its characters for [count_words_fast], the words of
    all the texts for [map_reduce]. *)
Theorem counts_add_up :
  (∀ data, total (count_words data) = Z.of_nat (length (split data))) ∧
  (∀ data, total (count_words_fast data) = len data) ∧
  (∀ data, total (map_reduce data)
           = sum_Z ((λ s, Z.of_nat (length (split s))) <$> data)).
Proof.
  assert (∀ data, total (count_words data) = Z.of_nat (length (split data)))
    as Hwords.
  { intros data. unfold count_words, Counter.
    rewrite total_Counter_update, total_empty. lia. }
  split; [exact Hwords|]. split.
  - intros data. rewrite count_words_fast_Counter. unfold Counter, len.
    rewrite total_Counter_update, total_empty, length_iter_str. lia.
  - intros data.
    destruct (add_dicts_total (count_words <$> data) ∅) as (r & Hr & Ht).
    fold (sum_by_key (count_words <$> data)) in Hr.
    rewrite map_reduce_as_sum in Hr. injection Hr as <-.
    rewrite Ht, total_empty, <- list_fmap_compose, Z.add_0_l. f_equal.
    apply list_fmap_ext. intros i s _. simpl. apply Hwords.
Qed.

(** ** Partition sizing: errors, order and capacity *)

Lemma insert_by_key_lex x l :
  Forall (λ y : Z * nat, (x.2 < y.2)%nat) l →
  StronglySorted pair_lt l →
  StronglySorted pair_lt (insert_by_key x l).
Proof.
  intros Hlater Hsorted. induction Hsorted as [|y l Hsorted IH Hy]; simpl.
  - repeat constructor.
  - apply Forall_cons in Hlater as [Hxy Hlater].
    destruct (decide (x.1 ≤ y.1)) as [Hle|Hgt].
    + constructor; [by constructor|]. constructor.
      * unfold pair_lt. lia.
      * apply Forall_forall. intros b Hb.
        rewrite Forall_forall in Hy. rewrite Forall_forall in Hlater.
        specialize (Hy b Hb). specialize (Hlater b Hb).
        unfold pair_lt in *. lia.
    + constructor; [by apply IH|]. rewrite insert_by_key_Permutation.
      constructor; [unfold pair_lt; lia|done].
Qed.

Lemma sort_by_key_lex l :
  StronglySorted (λ a b : Z * nat, (a.2 < b.2)%nat) l →
  StronglySorted pair_lt (sort_by_key l).
Proof.
  induction 1 as [|x l Hsorted IH Hx]; simpl; [constructor|].
  apply insert_by_key_lex; [|done]. by rewrite sort_by_key_Permutation.
Qed.

Lemma zip_sorted_snd (ks : list Z) (l : list nat) :
  StronglySorted lt l →
  StronglySorted (λ a b : Z * nat, (a.2 < b.2)%nat) (zip ks l).
Proof.
  intros Hsorted. revert ks.
  induction Hsorted as [|k l Hsorted IH Hk]; intros [|z ks]; simpl;
    try constructor; [apply IH|].
  apply Forall_forall. intros [z' k'] Hin. simpl.
  apply elem_of_zip_r in Hin. by eapply Forall_forall in Hk.
Qed.

Lemma seq_sorted (start n : nat) : StronglySorted lt (seq start n).
Proof.
  revert start. induction n as [|n IH]; intros start; simpl; constructor.
  - apply IH.
  - apply Forall_seq. intros k Hk. lia.
Qed.

Lemma map_res_getitem_lookup (sizes : list Z) (l : list nat) (ks : list Z) :
  map_res (getitem sizes) l = Ok ks →
  Forall (λ p : Z * nat, sizes !! p.2 = Some p.1) (zip ks l).
Proof.
  revert ks. induction l as [|k l IH]; intros ks; simpl.
  - intros [= <-]. constructor.
  - destruct (getitem sizes k) as [z|e] eqn:Hk;
      cbn [mbind res_bind]; [|discriminate].
    assert (sizes !! k = Some z) as Hz.
    { unfold getitem in Hk. destruct (sizes !! k); congruence. }
    destruct (map_res (getitem sizes) l) as [ks'|] eqn:Hks;
      cbn [mbind res_bind]; [|discriminate].
    intros [= <-]. simpl. constructor; [done|]. by apply IH.
Qed.

Lemma sorted_by_size_index (sizes : list Z) (l : list (Z * nat)) :
  Forall (λ p : Z * nat, sizes !! p.2 = Some p.1) l →
  StronglySorted pair_lt l →
  StronglySorted (size_index_lt sizes) l.*2.
Proof.
  intros Hsizes Hsorted.
  induction Hsorted as [|x l Hsorted IH Hx]; csimpl; [constructor|].
  apply Forall_cons in Hsizes as [Hxsize Hsizes].
  constructor; [by apply IH|].
  apply Forall_fmap, Forall_forall. intros b Hb.
  rewrite Forall_forall in Hx. rewrite Forall_forall in Hsizes.
  specialize (Hx b Hb). specialize (Hsizes b Hb).
  unfold size_index_lt, size_at, pair_lt in *. simpl.
  rewrite Hxsize, Hsizes. simpl. done.
Qed.

(** [sorted(range(len(sizes)), key=lambda k: sizes[k])] raises nothing and
    returns the indices in the order of their sizes, indices of the same
    size in increasing order. *)
Lemma sorted_range (sizes : list Z) :
  ∃ perm,
    sorted (range (Z.of_nat (length sizes))) (λ k, getitem sizes k) = Ok perm ∧
    perm ≡ₚ seq 0 (length sizes) ∧
    StronglySorted (size_index_lt sizes) perm.
Proof.
  rewrite range_of_nat. unfold sorted.
  change (λ k, getitem sizes k) with (getitem sizes).
  destruct (map_res_getitem sizes (seq 0 (length sizes))) as (ks & Hks & Hlen).
  { apply Forall_seq. intros k Hk. lia. }
  rewrite Hks. simpl. eexists. split; [done|]. split.
  - rewrite sort_by_key_Permutation. by rewrite snd_zip by lia.
  - apply sorted_by_size_index.
    + rewrite sort_by_key_Permutation. by apply map_res_getitem_lookup.
    + apply sort_by_key_lex, zip_sorted_snd, seq_sorted.
Qed.

(** [split_partitions] raises exactly when [num_partitions] is 0, and
    then [ZeroDivisionError]; on any other number, negative ones
    included, it returns max(1, num_partitions) lists whose
    concatenation is a permutation of the indices. *)
Theorem split_partitions_zero_division (sizes : list Z) (num_partitions : Z) :
  if decide (num_partitions = 0)
  then split_partitions sizes num_partitions = Raise ZeroDivisionError
  else ∃ result, split_partitions sizes num_partitions = Ok result ∧
         Z.of_nat (length result) = 1 `max` num_partitions ∧
         concat result ≡ₚ seq 0 (length sizes).
Proof.
  unfold split_partitions, floordiv.
  destruct (decide (num_partitions = 0)) as [|Hnum]; [done|].
  cbn [mbind res_bind].
  destruct (sorted_range sizes) as (perm & -> & Hperm & _).
  cbn [mbind res_bind]. rewrite range_of_nat.
  set (result := (λ _, []) <$> range (num_partitions - 1)).
  destruct (for_partition_keeps sizes
      ((py_sum sizes + num_partitions - 1) `div` num_partitions)
      (seq 0 (length result)) perm result)
    as (head' & result' & -> & Hlen & Hkeep).
  { apply Forall_seq. intros k Hk. lia. }
  { by rewrite Hperm; apply Forall_seq; intros k Hk; lia. }
  simpl. exists (result' ++ [head']). split; [done|]. split.
  - rewrite length_app, Hlen. subst result. unfold range.
    rewrite length_fmap, length_seq. simpl. lia.
  - rewrite concat_app. simpl. rewrite app_nil_r, Hkeep.
    subst result. by rewrite concat_empty_lists.
Qed.

(** With one partition, or a negative number of them, the result is one
    list: all the indices, in the order of their sizes, indices of the
    same size in increasing order. *)
Theorem split_partitions_single (sizes : list Z) (num_partitions : Z) :
  num_partitions ≠ 0 →
  num_partitions ≤ 1 →
  ∃ perm, split_partitions sizes num_partitions = Ok [perm] ∧
    perm ≡ₚ seq 0 (length sizes) ∧
    StronglySorted (size_index_lt sizes) perm.
Proof.
  intros Hnum Hle. unfold split_partitions, floordiv.
  rewrite decide_False by done. cbn [mbind res_bind].
  destruct (sorted_range sizes) as (perm & -> & Hperm & Hsorted).
  cbn [mbind res_bind]. exists perm. split; [|done].
  unfold range. replace (Z.to_nat (num_partitions - 1)) with 0%nat by lia.
  reflexivity.
Qed.

Lemma split_partitions_single_witness :
  1 ≠ 0 ∧ 1 ≤ 1 ∧ split_partitions [3; 1; 3; 2] 1 = Ok [[1; 3; 0; 2]%nat].
Proof.
  assert (1 ≠ 0) as Hnum by lia. assert (1 ≤ 1) as Hle by lia.
  split; [exact Hnum|]. split; [exact Hle|].
  destruct (split_partitions_single [3; 1; 3; 2] 1 Hnum Hle) as (perm & Hres & _).
  reflexivity.
Defined.

Lemma concat_nil_replicate {A} (ls : list (list A)) :
  concat ls = [] → ls = replicate (length ls) [].
Proof.
  induction ls as [|l ls IH]; simpl; [done|].
  intros [-> Hls]%app_eq_nil. by rewrite <- IH.
Qed.

(** Without sizes, the result is [num_partitions] empty lists. *)
Theorem split_partitions_no_sizes (num_partitions : Z) :
  1 ≤ num_partitions →
  split_partitions [] num_partitions = Ok (replicate (Z.to_nat num_partitions) []).
Proof.
  intros Hnum.
  destruct (split_partitions_Permutation [] num_partitions Hnum)
    as (result & -> & Hlen & Hperm).
  f_equal. simpl in Hperm. apply Permutation_nil_r in Hperm.
  rewrite (concat_nil_replicate result Hperm). f_equal. lia.
Qed.

Lemma split_partitions_no_sizes_witness :
  1 ≤ 3 ∧ split_partitions [] 3 = Ok [[]; []; []].
Proof.
  assert (1 ≤ 3) as Hnum by lia. split; [exact Hnum|].
  exact (split_partitions_no_sizes 3 Hnum).
Defined.

Lemma partition_total_snoc (sizes : list Z) (part : list nat) (elem : nat) :
  partition_total sizes (part ++ [elem])
  = partition_total sizes part + size_at sizes elem.
Proof.
  unfold partition_total. rewrite fmap_app, sum_Z_app. unfold sum_Z. simpl. lia.
Qed.

(** The inner loop touches the list of its partition only, and fills it
    up to [partition_size] at most; [cur_size] is the sum of the sizes in
    the list. *)
Lemma while_head_capacity (sizes : list Z) (partition_size : Z) (partition : nat)
    (fuel : nat) (head tail : list nat) (result : list (list nat))
    (cur_size : Z) (part : list nat) :
  (length head ≤ fuel)%nat →
  Forall (λ k, (k < length sizes)%nat) head →
  result !! partition = Some part →
  cur_size = partition_total sizes part →
  cur_size ≤ partition_size →
  ∃ tail' part',
    while_head fuel sizes partition_size partition head tail result cur_size
      = Ok ([], tail', <[partition := part']> result) ∧
    partition_total sizes part' ≤ partition_size.
Proof.
  revert head tail result cur_size part.
  induction fuel as [|fuel IH];
    intros head tail result cur_size part Hfuel Hhead Hpart Hcur Hle.
  - destruct head; [|simpl in Hfuel; lia].
    exists tail, part. rewrite list_insert_id by done. split; [done|lia].
  - simpl. destruct (pop head) as [[head' elem]|] eqn:Hpop.
    + apply pop_Some in Hpop as ->.
      apply Forall_app in Hhead as [Hhead' Helem].
      rewrite Forall_singleton in Helem.
      rewrite length_app in Hfuel. simpl in Hfuel.
      destruct (getitem_lt sizes elem Helem) as (size & -> & Hsize). simpl.
      assert (size_at sizes elem = size) as Hat.
      { unfold size_at. by rewrite Hsize. }
      destruct (decide (size ≤ partition_size - cur_size)).
      * unfold getitem. rewrite Hpart. simpl.
        destruct (IH head' tail (<[partition := part ++ [elem]]> result)
                    (cur_size + size) (part ++ [elem]))
          as (tail' & part' & Hrun & Hbound).
        { lia. } { done. }
        { apply list_lookup_insert_eq. by eapply lookup_lt_Some. }
        { rewrite partition_total_snoc. lia. }
        { lia. }
        exists tail', part'. rewrite Hrun. by rewrite list_insert_insert_eq.
      * apply (IH head' (tail ++ [elem]) result cur_size part); [lia|done..].
    + apply pop_None in Hpop as ->.
      exists tail, part. rewrite list_insert_id by done. split; [done|lia].
Qed.

Lemma for_partition_capacity (sizes : list Z) (partition_size : Z)
    (partitions : list nat) (head : list nat) (result : list (list nat)) :
  0 ≤ partition_size →
  NoDup partitions →
  Forall (λ p, result !! p = Some []) partitions →
  Forall (λ k, (k < length sizes)%nat) head →
  ∃ head' result',
    for_partition partitions sizes partition_size head result = Ok (head', result') ∧
    (∀ p, p ∈ partitions →
       ∃ l, result' !! p = Some l ∧ partition_total sizes l ≤ partition_size) ∧
    (∀ q, q ∉ partitions → result' !! q = result !! q).
Proof.
  intros Hsize. revert head result.
  induction partitions as [|partition rest IH];
    intros head result Hnodup Hempty Hhead.
  - exists head, result. split; [done|]. split; [|done].
    intros p Hp. by apply elem_of_nil in Hp.
  - apply NoDup_cons in Hnodup as [Hnotin Hnodup].
    apply Forall_cons in Hempty as [Hpart Hempty].
    destruct (while_head_exits sizes partition_size partition (length head)
                head [] result 0)
      as (tail & result1 & Hrun & Htail & _ & _);
      [done|done|constructor|by eapply lookup_lt_Some|].
    destruct (while_head_capacity sizes partition_size partition (length head)
                head [] result 0 [])
      as (tail' & part & Hrun' & Hbound); [done..|].
    rewrite Hrun in Hrun'. injection Hrun' as <- ->.
    destruct (IH (reverse tail) (<[partition := part]> result))
      as (head' & result' & Hfor & Hparts & Hrest).
    { done. }
    { apply Forall_forall. intros p Hp.
      rewrite list_lookup_insert_ne by (by intros ->).
      by eapply Forall_forall in Hempty. }
    { by rewrite reverse_Permutation. }
    exists head', result'. split.
    { simpl. rewrite Hrun. simpl. exact Hfor. }
    split.
    + intros p [->|Hp]%elem_of_cons; [|by apply Hparts].
      exists part. split; [|done]. rewrite (Hrest partition Hnotin).
      apply list_lookup_insert_eq. by eapply lookup_lt_Some.
    + intros q [Hne Hq]%not_elem_of_cons.
      rewrite (Hrest q Hq). by apply list_lookup_insert_ne.
Qed.

Lemma foldl_add_nonneg (acc : Z) (sizes : list Z) :
  0 ≤ acc → Forall (λ size, 0 ≤ size) sizes → 0 ≤ foldl Z.add acc sizes.
Proof.
  intros Hacc Hsizes. revert acc Hacc.
  induction Hsizes as [|size sizes Hsize _ IH]; intros acc Hacc; simpl; [done|].
  apply IH. lia.
Qed.

Lemma py_sum_nonneg (sizes : list Z) :
  Forall (λ size, 0 ≤ size) sizes → 0 ≤ py_sum sizes.
Proof. by apply foldl_add_nonneg. Qed.

(** Each list but the last holds elements whose sizes add up to the
    partition size at most, which is the sum of the sizes divided by
    [num_partitions], rounded up. *)
Theorem split_partitions_capacity (sizes : list Z) (num_partitions : Z) :
  Forall (λ size, 0 ≤ size) sizes →
  1 ≤ num_partitions →
  ∃ result, split_partitions sizes num_partitions = Ok result ∧
    ∀ (j : nat) l, Z.of_nat j < num_partitions - 1 →
      result !! j = Some l →
      partition_total sizes l
      ≤ (py_sum sizes + num_partitions - 1) `div` num_partitions.
Proof.
  intros Hsizes Hnum. unfold split_partitions, floordiv.
  rewrite decide_False by lia. cbn [mbind res_bind].
  destruct (sorted_range sizes) as (perm & -> & Hperm & _).
  cbn [mbind res_bind]. rewrite range_of_nat.
  set (partition_size := (py_sum sizes + num_partitions - 1) `div` num_partitions).
  set (result := (λ _, []) <$> range (num_partitions - 1)).
  assert (length result = Z.to_nat (num_partitions - 1)) as Hlen.
  { subst result. unfold range. by rewrite length_fmap, length_seq. }
  destruct (for_partition_capacity sizes partition_size
      (seq 0 (length result)) perm result)
    as (head' & result' & -> & Hparts & _).
  { apply Z.div_pos; [|lia]. pose proof (py_sum_nonneg sizes Hsizes). lia. }
  { apply NoDup_seq. }
  { apply Forall_seq. intros p Hp. subst result. unfold range.
    rewrite list_lookup_fmap, lookup_seq_lt; [done|]. lia. }
  { by rewrite Hperm; apply Forall_seq; intros k Hk; lia. }
  simpl. exists (result' ++ [head']). split; [done|].
  intros j l Hj Hl.
  destruct (Hparts j) as (l' & Hl' & Hbound).
  { apply elem_of_seq. lia. }
  rewrite (lookup_app_l_Some _ _ _ _ Hl') in Hl. by injection Hl as <-.
Qed.

Lemma split_partitions_capacity_witness :
  Forall (λ size, 0 ≤ size) [5; 1; 2; 2; 7; 3] ∧ 1 ≤ 3 ∧
  ∃ result, split_partitions [5; 1; 2; 2; 7; 3] 3 = Ok result ∧
    ∀ l, result !! 1%nat = Some l → partition_total [5; 1; 2; 2; 7; 3] l ≤ 7.
Proof.
  assert (Forall (λ size, 0 ≤ size) [5; 1; 2; 2; 7; 3]) as Hsizes.
  { repeat first [apply Forall_nil_2 | apply Forall_cons_2]; lia. }
  assert (1 ≤ 3) as Hnum by lia.
  split; [exact Hsizes|]. split; [exact Hnum|].
  destruct (split_partitions_capacity [5; 1; 2; 2; 7; 3] 3 Hsizes Hnum)
    as (result & Hres & Hbound).
  exists result. split; [exact Hres|].
  intros l Hl. apply (Hbound 1%nat l); [lia|exact Hl].
Defined.

(** ** The order of the texts *)

(** [map_reduce] does not depend on the order of the texts. *)
Theorem map_reduce_Permutation (data data' : list string) :
  data ≡ₚ data' → map_reduce data = map_reduce data'.
Proof.
  intros Hperm.
  assert (sum_by_key (count_words <$> data) = sum_by_key (count_words <$> data'))
    as Heq by (apply sum_by_key_perm; by rewrite Hperm).
  rewrite !map_reduce_as_sum in Heq. by injection Heq.
Qed.

Lemma map_reduce_Permutation_witness :
  map_reduce ["a b"; "b c"]%string = map_reduce ["b c"; "a b"]%string.
Proof. apply map_reduce_Permutation, Permutation_swap. Defined.

(** ** Partition sizing: the order inside a list *)

Lemma StronglySorted_weaken {A} (R R' : A → A → Prop) (l : list A) :
  (∀ x y, R x y → R' x y) → StronglySorted R l → StronglySorted R' l.
Proof.
  intros HR. induction 1 as [|x l Hsorted IH Hx]; constructor; [done|].
  eapply Forall_impl; [exact Hx|]. apply HR.
Qed.

(** The inner loop takes the elements from the largest down: the list of
    the partition stays ordered from the largest to the smallest, and what
    is left over is ordered as [head] was. *)
Lemma while_head_order (sizes : list Z) (partition_size : Z) (partition : nat)
    (fuel : nat) (head tail : list nat) (result : list (list nat))
    (cur_size : Z) (part : list nat) :
  (length head ≤ fuel)%nat →
  Forall (λ k, (k < length sizes)%nat) head →
  result !! partition = Some part →
  StronglySorted (size_le sizes) (head ++ reverse tail) →
  StronglySorted (flip (size_le sizes)) part →
  (∀ x y, x ∈ part → y ∈ head → size_le sizes y x) →
  ∃ tail' part',
    while_head fuel sizes partition_size partition head tail result cur_size
      = Ok ([], tail', <[partition := part']> result) ∧
    StronglySorted (size_le sizes) (reverse tail') ∧
    StronglySorted (flip (size_le sizes)) part'.
Proof.
  revert head tail result cur_size part.
  induction fuel as [|fuel IH];
    intros head tail result cur_size part Hfuel Hhead Hpart Hsorted Hdesc Hbelow.
  - destruct head; [|simpl in Hfuel; lia].
    exists tail, part. by rewrite list_insert_id by done.
  - simpl. destruct (pop head) as [[head' elem]|] eqn:Hpop.
    + apply pop_Some in Hpop as ->.
      apply Forall_app in Hhead as [Hhead' Helem].
      rewrite Forall_singleton in Helem.
      rewrite length_app in Hfuel. simpl in Hfuel.
      destruct (getitem_lt sizes elem Helem) as (size & -> & Hsize). simpl.
      destruct (decide (size ≤ partition_size - cur_size)).
      * unfold getitem. rewrite Hpart. simpl.
        apply StronglySorted_app in Hsorted as (Hcross & Hhead_sorted & Htail_sorted).
        apply StronglySorted_app in Hhead_sorted as (Hlast & Hhead'_sorted & _).
        destruct (IH head' tail (<[partition := part ++ [elem]]> result)
                    (cur_size + size) (part ++ [elem]))
          as (tail' & part' & Hrun & Hleft & Hpart').
        { lia. } { done. }
        { apply list_lookup_insert_eq. by eapply lookup_lt_Some. }
        { apply StronglySorted_app. split; [|done].
          intros x y Hx Hy. apply Hcross; [|done]. apply elem_of_app. by left. }
        { apply StronglySorted_app. split; [|split; [done|repeat constructor]].
          intros x y Hx Hy%list_elem_of_singleton. subst y.
          apply Hbelow; [done|]. apply elem_of_app. right. by left. }
        { intros x y [Hx|Hx%list_elem_of_singleton]%elem_of_app Hy.
          - apply Hbelow; [done|]. apply elem_of_app. by left.
          - subst x. apply Hlast; [done|by left]. }
        exists tail', part'. rewrite Hrun. by rewrite list_insert_insert_eq.
      * apply (IH head' (tail ++ [elem]) result cur_size part); [lia|done..| |done|].
        -- rewrite reverse_snoc. rewrite <- app_assoc in Hsorted. exact Hsorted.
        -- intros x y Hx Hy. apply Hbelow; [done|]. apply elem_of_app. by left.
    + apply pop_None in Hpop as ->.
      exists tail, part. by rewrite list_insert_id by done.
Qed.

Lemma for_partition_order (sizes : list Z) (partition_size : Z)
    (partitions : list nat) (head : list nat) (result : list (list nat)) :
  NoDup partitions →
  Forall (λ p, result !! p = Some []) partitions →
  Forall (λ k, (k < length sizes)%nat) head →
  StronglySorted (size_le sizes) head →
  ∃ head' result',
    for_partition partitions sizes partition_size head result = Ok (head', result') ∧
    length result' = length result ∧
    StronglySorted (size_le sizes) head' ∧
    (∀ p, p ∈ partitions →
       ∃ l, result' !! p = Some l ∧ StronglySorted (flip (size_le sizes)) l) ∧
    (∀ q, q ∉ partitions → result' !! q = result !! q).
Proof.
  revert head result.
  induction partitions as [|partition rest IH];
    intros head result Hnodup Hempty Hhead Hsorted.
  - exists head, result. do 3 (split; [done|]). split; [|done].
    intros p Hp. by apply elem_of_nil in Hp.
  - apply NoDup_cons in Hnodup as [Hnotin Hnodup].
    apply Forall_cons in Hempty as [Hpart Hempty].
    destruct (while_head_exits sizes partition_size partition (length head)
                head [] result 0)
      as (tail & result1 & Hrun & Htail & Hlen & _);
      [done|done|constructor|by eapply lookup_lt_Some|].
    destruct (while_head_order sizes partition_size partition (length head)
                head [] result 0 [])
      as (tail' & part & Hrun' & Hleft & Hdesc).
    { done. } { done. } { done. }
    { by rewrite app_nil_r. }
    { constructor. }
    { intros x y Hx. by apply elem_of_nil in Hx. }
    rewrite Hrun in Hrun'. injection Hrun' as <- ->.
    destruct (IH (reverse tail) (<[partition := part]> result))
      as (head' & result' & Hfor & Hlen' & Hhead' & Hparts & Hrest).
    { done. }
    { apply Forall_forall. intros p Hp.
      rewrite list_lookup_insert_ne by (by intros ->).
      by eapply Forall_forall in Hempty. }
    { by rewrite reverse_Permutation. }
    { done. }
    exists head', result'. split.
    { simpl. rewrite Hrun. simpl. exact Hfor. }
    split; [by rewrite Hlen', length_insert|]. split; [done|]. split.
    + intros p [->|Hp]%elem_of_cons; [|by apply Hparts].
      exists part. split; [|done]. rewrite (Hrest partition Hnotin).
      apply list_lookup_insert_eq. by eapply lookup_lt_Some.
    + intros q [Hne Hq]%not_elem_of_cons.
      rewrite (Hrest q Hq). by apply list_lookup_insert_ne.
Qed.

(** Each list but the last gives its elements from the largest to the
    smallest; the last list gives what is left from the smallest to the
    largest. *)
Theorem split_partitions_order (sizes : list Z) (num_partitions : Z) :
  1 ≤ num_partitions →
  ∃ result, split_partitions sizes num_partitions = Ok result ∧
    ∀ (j : nat) l, result !! j = Some l →
      if decide (Z.of_nat j < num_partitions - 1)
      then StronglySorted (flip (size_le sizes)) l
      else StronglySorted (size_le sizes) l.
Proof.
  intros Hnum. unfold split_partitions, floordiv.
  rewrite decide_False by lia. cbn [mbind res_bind].
  destruct (sorted_range sizes) as (perm & -> & Hperm & Hsorted).
  cbn [mbind res_bind]. rewrite range_of_nat.
  set (partition_size := (py_sum sizes + num_partitions - 1) `div` num_partitions).
  set (result := (λ _, []) <$> range (num_partitions - 1)).
  assert (length result = Z.to_nat (num_partitions - 1)) as Hlen.
  { subst result. unfold range. by rewrite length_fmap, length_seq. }
  destruct (for_partition_order sizes partition_size
      (seq 0 (length result)) perm result)
    as (head' & result' & -> & Hlen' & Hhead' & Hparts & _).
  { apply NoDup_seq. }
  { apply Forall_seq. intros p Hp. subst result. unfold range.
    rewrite list_lookup_fmap, lookup_seq_lt; [done|]. lia. }
  { by rewrite Hperm; apply Forall_seq; intros k Hk; lia. }
  { eapply StronglySorted_weaken; [|exact Hsorted].
    unfold size_index_lt, size_le. intros x y. lia. }
  simpl. exists (result' ++ [head']). split; [done|].
  intros j l Hl. destruct (decide (Z.of_nat j < num_partitions - 1)) as [Hj|Hj].
  - destruct (Hparts j) as (l' & Hl' & Hdesc).
    { apply elem_of_seq. lia. }
    rewrite (lookup_app_l_Some _ _ _ _ Hl') in Hl. by injection Hl as <-.
  - rewrite lookup_app_r in Hl by lia.
    apply list_elem_of_lookup_2, list_elem_of_singleton in Hl. by subst l.
Qed.

Lemma split_partitions_order_witness :
  1 ≤ 3 ∧
  ∃ result, split_partitions [5; 1; 2; 2; 7; 3] 3 = Ok result ∧
    ∀ l, result !! 1%nat = Some l →
      StronglySorted (flip (size_le [5; 1; 2; 2; 7; 3])) l.
Proof.
  assert (1 ≤ 3) as Hnum by lia. split; [exact Hnum|].
  destruct (split_partitions_order [5; 1; 2; 2; 7; 3] 3 Hnum)
    as (result & Hres & Horder).
  exists result. split; [exact Hres|].
  intros l Hl. exact (Horder 1%nat l Hl).
Defined.
